(** * Romaji SRS quiz: the scheduling and merge logic of [app.py]

    A shallow embedding of the four list buckets, the storage accessor
    ([load_list], [save_list]), the scheduler ([get_next_card]), the card
    transition ([move_card]) and the merge step
    ([add_new_examples_to_lists]), followed by the properties of the
    specification stated and proved over it.

    How the program is modelled, all read off the source:
    - a card is a Python dict with the six keys the program reads and
      writes; it is a record here, and an example and a word group of the
      source input likewise;
    - [lists] is a Python dict from list name to list of cards: a
      [gmap string (list Card)], and [lists[k]] on a missing key raises
      [KeyError];
    - time is the wall clock in microseconds, the resolution of
      [datetime] (the float of seconds that [timestamp()] returns orders
      such instants as the integers do); [datetime.now()] is a read of a
      clock the program does not control, so the world carries a sequence
      of readings and a count of the reads made so far, and nothing is
      assumed of the readings;
    - files hold text; [json.dump] and [json.load] belong to the Python
      library and are an interface, [Json], the program is given;
    - every function that can raise, or that touches the clock or the
      files, runs in a state-and-exception monad over the world; the
      world survives an exception, as the files written before it do;
    - the functions update [lists] in place and return nothing; here they
      return the updated mapping. The card handed to [move_card] is
      either the entry found in [from_list] or a copy of it kept across
      reruns in the session state, and the list comprehension rebuilds
      [from_list] before the card is stamped, so the stamp reaches no
      entry of a list; cards are therefore values. *)

From Stdlib Require Import ZArith Ascii.
From stdpp Require Import gmap strings list fin_maps pretty.

(** ** Data model *)

(** One example of the source input: the object
    [{sentence, romaji, english, romaji_meaning}]. *)
Record Example := {
  ex_sentence : string;
  ex_romaji : string;
  ex_english : string;
  ex_romaji_meaning : string
}.

(** One word group of the source input: [{word, examples}]. *)
Record WordGroup := {
  word : string;
  examples : list Example
}.

(** A card: the example's keys plus [root_word] and [next_review]. *)
Record Card := {
  sentence : string;
  romaji : string;
  english : string;
  romaji_meaning : string;
  root_word : string;
  next_review : Z
}.

#[export] Instance Example_eq_dec : EqDecision Example.
Proof. solve_decision. Defined.

#[export] Instance Card_eq_dec : EqDecision Card.
Proof. solve_decision. Defined.

(** [card_entry["next_review"] = t]. *)
Definition set_next_review (c : Card) (t : Z) : Card :=
  {| sentence := sentence c; romaji := romaji c; english := english c;
     romaji_meaning := romaji_meaning c; root_word := root_word c;
     next_review := t |}.

(** ** Configuration *)

Definition DATA_DIR : string := "data".

Definition LISTS : list string := ["hard"; "difficult"; "easy"; "unknown"].

(** Minutes, keyed by list name. *)
Definition REPEAT_INTERVALS : gmap string Z :=
  list_to_map [("difficult", 5%Z); ("hard", 1%Z); ("easy", 120%Z); ("unknown", 1%Z)].

(** [timedelta(minutes=1)] in microseconds. *)
Definition minute : Z := 60000000.

(** ** The world: files, clock, and the monad of effects *)

Record World := {
  files : gmap string string;        (* path -> text *)
  written : list (string * string);  (* every write so far, oldest first *)
  clock : nat → Z;                   (* the n-th reading of the wall clock *)
  ticks : nat                        (* clock reads made so far *)
}.

Inductive exn :=
  | KeyError (k : string)
  | JSONDecodeError.

Inductive outcome (A : Type) :=
  | Ok (a : A)
  | Raise (e : exn).
Arguments Ok {A} a.
Arguments Raise {A} e.

Definition M (A : Type) : Type := World → outcome A * World.

#[export] Instance M_ret : MRet M := λ A a w, (Ok a, w).

#[export] Instance M_bind : MBind M := λ A B f m w,
  match m w with
  | (Ok a, w') => f a w'
  | (Raise e, w') => (Raise e, w')
  end.

Definition raise {A} (e : exn) : M A := λ w, (Raise e, w).

(** [d[k]] on a Python dict. *)
Definition getitem {V} (d : gmap string V) (k : string) : M V :=
  match d !! k with
  | Some v => mret v
  | None => raise (KeyError k)
  end.

(** [datetime.now().timestamp()]: the next reading of the clock. *)
Definition datetime_now : M Z := λ w,
  (Ok (clock w (ticks w)),
   {| files := files w; written := written w; clock := clock w;
      ticks := S (ticks w) |}).

(** [open(path, "w").write(text)]: the data directory exists
    ([ensure_dirs] runs at start-up) and the write replaces the file. *)
Definition write_file (path text : string) : M unit := λ w,
  (Ok (),
   {| files := <[path := text]> (files w);
      written := written w ++ [(path, text)];
      clock := clock w; ticks := ticks w |}).

(** The [json] module, as far as the program uses it on lists of cards:
    [json.dump(data, f, indent, ensure_ascii)] and [json.load(f)], the
    latter failing on text that does not parse. *)
Class Json := {
  json_dump : list Card → nat → bool → string;
  json_load : string → option (list Card)
}.

(** ** Paths *)

Definition ends_with_slash (s : string) : bool :=
  match last (String.list_ascii_of_string s) with
  | Some c => bool_decide (c = "/"%char)
  | None => false
  end.

(** [os.path.join(a, b)] on POSIX. *)
Definition path_join (a b : string) : string :=
  if String.prefix "/" b then b
  else if bool_decide (a = EmptyString) || ends_with_slash a then a +:+ b
  else a +:+ "/" +:+ b.

Definition list_path (list_name : string) : string :=
  path_join DATA_DIR (list_name +:+ ".json").

Section Program.
Context `{Json}.

(** ** Storage accessor *)


Definition save_list (list_name : string) (data : list Card) : M unit :=
  let path := list_path list_name in
  write_file path (json_dump data 4 false).

(** ** Scheduler *)

(** The inner loop of [get_next_card] over one list. *)
Fixpoint first_due (now : Z) (entries : list Card) : option Card :=
  match entries with
  | [] => None
  | entry :: rest =>
      if (now >=? next_review entry)%Z then Some entry
      else first_due now rest
  end.

(** The outer loop, over the names still to visit. *)
Fixpoint scan_lists (now : Z) (names : list string)
    (lists : gmap string (list Card)) : M (option (Card * string)) :=
  match names with
  | [] => mret None
  | list_name :: rest =>
      entries ← getitem lists list_name;
      match first_due now entries with
      | Some entry => mret (Some (entry, list_name))
      | None => scan_lists now rest lists
      end
  end.

(** [None] stands for the pair [(None, None)]. *)
Definition get_next_card (lists : gmap string (list Card))
    : M (option (Card * string)) :=
  now ← datetime_now;
  scan_lists now LISTS lists.

(** ** Card transition *)

(** [for l in LISTS: save_list(l, lists[l])]. *)
Fixpoint save_all (names : list string) (lists : gmap string (list Card))
    : M unit :=
  match names with
  | [] => mret ()
  | l :: rest =>
      data ← getitem lists l;
      save_list l data;;
      save_all rest lists
  end.

(** The comprehension [[w for w in old if w["sentence"] != s]]. *)
Definition remove_sentence (s : string) (old : list Card) : list Card :=
  filter (λ w, sentence w ≠ s) old.

(** The statements of the body in their order: the removal, the lookup
    of the interval, the clock read, the stamp, the append, the saves. *)
Definition move_card (card_entry : Card) (from_list to_list : string)
    (lists : gmap string (list Card)) : M (gmap string (list Card)) :=
  old ← getitem lists from_list;
  let lists := <[from_list := remove_sentence (sentence card_entry) old]> lists in
  interval ← getitem REPEAT_INTERVALS to_list;
  now ← datetime_now;
  let next_review := (now + interval * minute)%Z in
  let card_entry := set_next_review card_entry next_review in
  dest ← getitem lists to_list;
  let lists := <[to_list := dest ++ [card_entry]]> lists in
  save_all LISTS lists;;
  mret lists.

(** ** Merge step *)

(** The first loop nest: the sentences of all cards of the lists. *)
Fixpoint tracked_sentences (names : list string)
    (lists : gmap string (list Card)) (acc : gset string) : M (gset string) :=
  match names with
  | [] => mret acc
  | l_name :: rest =>
      entries ← getitem lists l_name;
      tracked_sentences rest lists
        (foldl (λ s entry, s ∪ {[sentence entry]}) acc entries)
  end.

(** What the second loop nest carries from one example to the next. *)
Record MergeState := {
  m_lists : gmap string (list Card);
  all_tracked_sentences : gset string;
  changes_made : bool
}.

(** [example.copy()] with [root_word] and [next_review] set. *)
Definition new_card (root : string) (example : Example) (now : Z) : Card :=
  {| sentence := ex_sentence example; romaji := ex_romaji example;
     english := ex_english example;
     romaji_meaning := ex_romaji_meaning example;
     root_word := root; next_review := now |}.

(** The body of the inner loop. *)
Definition add_example (root : string) (example : Example) (st : MergeState)
    : M MergeState :=
  if decide (ex_sentence example ∈ all_tracked_sentences st) then mret st
  else
    now ← datetime_now;
    unknown ← getitem (m_lists st) "unknown";
    mret {| m_lists := <["unknown" := unknown ++ [new_card root example now]]> (m_lists st);
            all_tracked_sentences := all_tracked_sentences st ∪ {[ex_sentence example]};
            changes_made := true |}.

Fixpoint add_examples (root : string) (exs : list Example) (st : MergeState)
    : M MergeState :=
  match exs with
  | [] => mret st
  | example :: rest =>
      st' ← add_example root example st;
      add_examples root rest st'
  end.

Fixpoint add_word_groups (input_data : list WordGroup) (st : MergeState)
    : M MergeState :=
  match input_data with
  | [] => mret st
  | word_group :: rest =>
      st' ← add_examples (word word_group) (examples word_group) st;
      add_word_groups rest st'
  end.

Definition add_new_examples_to_lists (input_data : list WordGroup)
    (lists : gmap string (list Card)) : M (gmap string (list Card)) :=
  tracked ← tracked_sentences LISTS lists ∅;
  st ← add_word_groups input_data
         {| m_lists := lists; all_tracked_sentences := tracked;
            changes_made := false |};
  if changes_made st then
    unknown ← getitem (m_lists st) "unknown";
    save_list "unknown" unknown;;
    mret (m_lists st)
  else mret (m_lists st).

End Program.

(** ** Notions the properties are stated with *)

(** The world after one more clock read. *)
Definition tick (w : World) : World :=
  {| files := files w; written := written w; clock := clock w;
     ticks := S (ticks w) |}.

(** The world after [text] has been written to [path]. *)
Definition put_file (path text : string) (w : World) : World :=
  {| files := <[path := text]> (files w);
     written := written w ++ [(path, text)];
     clock := clock w; ticks := ticks w |}.

(** The mapping has the four lists. *)
Definition lists_ok (lists : gmap string (list Card)) : Prop :=
  ∀ n, n ∈ LISTS → is_Some (lists !! n).

(** A card is due at [now]. *)
Definition due (now : Z) (c : Card) : Prop := (next_review c ≤ now)%Z.

(** Every card with the name of its list, in the order the scheduler
    visits them: list by list in the order of [LISTS], each list in
    stored order. *)
Definition entries_of (names : list string) (lists : gmap string (list Card))
    : list (Card * string) :=
  n ← names; (λ c, (c, n)) <$> lists !!! n.

Definition entries_in_order (lists : gmap string (list Card))
    : list (Card * string) :=
  entries_of LISTS lists.

(** All cards of the four lists, in the same order. *)
Definition all_cards (lists : gmap string (list Card)) : list Card :=
  n ← LISTS; lists !!! n.

(** The sentences of a list of cards. *)
Definition sentences (l : list Card) : list string := sentence <$> l.

(** No sentence occurs twice over the four lists together. *)
Definition unique_sentences (lists : gmap string (list Card)) : Prop :=
  NoDup (sentences (all_cards lists)).

(** How many entries of [l] carry the sentence [s]. *)
Definition occurrences (s : string) (l : list Card) : nat :=
  length (filter (λ w, sentence w = s) l).

(** The interval table in the words of the specification: hard 1,
    difficult 5, easy 120, unknown 1, in minutes. *)
Definition spec_interval (list_name : string) : Z :=
  if decide (list_name = "hard") then 1
  else if decide (list_name = "difficult") then 5
  else if decide (list_name = "easy") then 120
  else 1.

(** The mapping the program starts from when no list file exists. *)
Definition initial_lists : gmap string (list Card) :=
  list_to_map ((λ n, (n, [])) <$> LISTS).

(** The sentence of [card] occurs in no list other than [from_list]. *)
Definition only_in (card : Card) (from_list : string)
    (lists : gmap string (list Card)) : Prop :=
  ∀ n, n ∈ LISTS → n ≠ from_list → sentence card ∉ sentences (lists !!! n).

(** The examples of the source input in input order, each with the word
    of its group. *)
Definition flatten_input (input_data : list WordGroup)
    : list (string * Example) :=
  word_group ← input_data; (λ e, (word word_group, e)) <$> examples word_group.

(** The merge step in the words of the specification: the examples are
    taken in input order; an example whose sentence is not present in any
    list gets a card stamped with the clock reading of that moment, which
    joins the "unknown" list (and so is present from then on); the other
    examples are passed over. [present] lists the sentences of all four
    lists, [k] counts the clock reads made so far. The result is the new
    cards in the order they were made. *)
Fixpoint spec_new_cards (clk : nat → Z) (k : nat) (present : list string)
    (exs : list (string * Example)) : list Card :=
  match exs with
  | [] => []
  | (root, e) :: rest =>
      if decide (ex_sentence e ∈ present) then spec_new_cards clk k present rest
      else new_card root e (clk k)
             :: spec_new_cards clk (S k) (present ++ [ex_sentence e]) rest
  end.

(** The examples that get a card, clock apart: those whose sentence is
    neither in [present] nor the sentence of an earlier example. *)
Fixpoint spec_new_examples (present : list string)
    (exs : list (string * Example)) : list (string * Example) :=
  match exs with
  | [] => []
  | (root, e) :: rest =>
      if decide (ex_sentence e ∈ present) then spec_new_examples present rest
      else (root, e) :: spec_new_examples (present ++ [ex_sentence e]) rest
  end.

(** The cards of the chosen examples: the i-th is stamped with the
    (k+i)-th clock reading. *)
Definition stamp (clk : nat → Z) (k : nat) (sel : list (string * Example))
    : list Card :=
  imap (λ i x, new_card x.1 x.2 (clk (k + i))) sel.

(** The sentences of a list of examples. *)
Definition ex_sentences (exs : list (string * Example)) : list string :=
  (λ x, ex_sentence x.2) <$> exs.

(** The world after [k] more clock reads. *)
Definition advance (k : nat) (w : World) : World :=
  {| files := files w; written := written w; clock := clock w;
     ticks := ticks w + k |}.

Section Notions.
Context `{Json}.

(** The world after the lists named by [names] have been saved, in that
    order. *)
Definition saved (names : list string) (lists : gmap string (list Card))
    (w : World) : World :=
  foldl (λ w n, put_file (list_path n) (json_dump (lists !!! n) 4 false) w)
        w names.

(** The states of [lists] the program can be in: it starts from the empty
    lists, and each step is a merge of some source input or a
    [move_card] that [guard] admits, run in some world. *)
Inductive reachable (guard : Card → string → gmap string (list Card) → Prop)
    : gmap string (list Card) → Prop :=
  | reach_init : reachable guard initial_lists
  | reach_merge input_data lists lists' w w' :
      reachable guard lists →
      add_new_examples_to_lists input_data lists w = (Ok lists', w') →
      reachable guard lists'
  | reach_move card from_list to_list lists lists' w w' :
      reachable guard lists →
      guard card from_list lists →
      move_card card from_list to_list lists w = (Ok lists', w') →
      reachable guard lists'.

End Notions.

(** ** A JSON printer and reader for lists of cards

    One [Json] the program can be given, to run it on examples. The
    printer lays a list out as [json.dump] does with an indent: one member
    per line, a time in seconds with up to six decimals. The reader takes
    any spacing and any order of the keys. *)
Module PlainJson.

Definition dq : ascii := "034"%char.
Definition bs : ascii := "\"%char.
Definition nl : ascii := "010"%char.
Definition tab : ascii := "009"%char.
Definition cr : ascii := "013"%char.

Definition text (cs : list ascii) : string := String.string_of_list_ascii cs.
Definition chars (s : string) : list ascii := String.list_ascii_of_string s.

Fixpoint escape (cs : list ascii) : list ascii :=
  match cs with
  | [] => []
  | c :: r =>
      if Ascii.eqb c dq then bs :: dq :: escape r
      else if Ascii.eqb c bs then bs :: bs :: escape r
      else if Ascii.eqb c nl then bs :: "n"%char :: escape r
      else if Ascii.eqb c tab then bs :: "t"%char :: escape r
      else if Ascii.eqb c cr then bs :: "r"%char :: escape r
      else c :: escape r
  end.

Definition print_string (s : string) : list ascii :=
  dq :: escape (chars s) ++ [dq].

Fixpoint drop_zeros (cs : list ascii) : list ascii :=
  match cs with
  | c :: r => if Ascii.eqb c "0"%char then drop_zeros r else cs
  | [] => []
  end.

(** Six decimals, the zeros at the end dropped but for one digit. *)
Definition print_decimals (micros : Z) : list ascii :=
  let ds := chars (pretty micros) in
  let six := replicate (6 - length ds) "0"%char ++ ds in
  match rev (drop_zeros (rev six)) with
  | [] => ["0"%char]
  | kept => kept
  end.

Definition print_seconds (t : Z) : list ascii :=
  let a := Z.abs t in
  (if (t <? 0)%Z then ["-"%char] else [])
  ++ chars (pretty (a / 1000000)%Z) ++ "."%char :: print_decimals (a mod 1000000)%Z.

Definition spaces (k : nat) : list ascii := replicate k " "%char.

Definition print_member (indent : nat) (key : string) (value : list ascii)
    : list ascii :=
  spaces (2 * indent) ++ print_string key ++ chars ": " ++ value.

Definition print_card (indent : nat) (c : Card) : list ascii :=
  spaces indent ++ "{"%char :: nl ::
  print_member indent "sentence" (print_string (sentence c)) ++ ","%char :: nl ::
  print_member indent "romaji" (print_string (romaji c)) ++ ","%char :: nl ::
  print_member indent "english" (print_string (english c)) ++ ","%char :: nl ::
  print_member indent "romaji_meaning" (print_string (romaji_meaning c)) ++ ","%char :: nl ::
  print_member indent "root_word" (print_string (root_word c)) ++ ","%char :: nl ::
  print_member indent "next_review" (print_seconds (next_review c)) ++ nl ::
  spaces indent ++ ["}"%char].

Fixpoint print_cards (indent : nat) (data : list Card) : list ascii :=
  match data with
  | [] => []
  | [c] => print_card indent c
  | c :: rest => print_card indent c ++ ","%char :: nl :: print_cards indent rest
  end.

Definition dump (data : list Card) (indent : nat) (ensure_ascii : bool) : string :=
  match data with
  | [] => "[]"
  | _ => text ("["%char :: nl :: print_cards indent data ++ [nl; "]"%char])
  end.

(** The reader. *)

Inductive jvalue :=
  | JStr (s : string)
  | JNum (t : Z).

Definition is_space (c : ascii) : bool :=
  Ascii.eqb c " "%char || Ascii.eqb c nl || Ascii.eqb c tab || Ascii.eqb c cr.

Fixpoint skip_spaces (cs : list ascii) : list ascii :=
  match cs with
  | c :: r => if is_space c then skip_spaces r else cs
  | [] => []
  end.

Definition unescape (c : ascii) : option ascii :=
  if Ascii.eqb c dq then Some dq
  else if Ascii.eqb c bs then Some bs
  else if Ascii.eqb c "/"%char then Some "/"%char
  else if Ascii.eqb c "n"%char then Some nl
  else if Ascii.eqb c "t"%char then Some tab
  else if Ascii.eqb c "r"%char then Some cr
  else None.

(** The characters of a string literal, after its opening quote. *)
Fixpoint read_string (cs : list ascii) : option (list ascii * list ascii) :=
  match cs with
  | [] => None
  | c :: r =>
      if Ascii.eqb c dq then Some ([], r)
      else if Ascii.eqb c bs then
        match r with
        | e :: r' =>
            match unescape e, read_string r' with
            | Some u, Some (body, after) => Some (u :: body, after)
            | _, _ => None
            end
        | [] => None
        end
      else
        match read_string r with
        | Some (body, after) => Some (c :: body, after)
        | None => None
        end
  end.

Definition digit (c : ascii) : option Z :=
  let n := nat_of_ascii c in
  if (48 <=? n)%nat && (n <=? 57)%nat then Some (Z.of_nat (n - 48)) else None.

Fixpoint read_digits (cs : list ascii) : list Z * list ascii :=
  match cs with
  | c :: r =>
      match digit c with
      | Some d => let '(ds, after) := read_digits r in (d :: ds, after)
      | None => ([], cs)
      end
  | [] => ([], [])
  end.

Definition number (ds : list Z) : Z := foldl (λ a d, 10 * a + d)%Z 0%Z ds.

(** A time in seconds, read as microseconds. *)
Definition read_seconds (cs : list ascii) : option (Z * list ascii) :=
  let '(neg, cs) := match cs with
                    | c :: r => if Ascii.eqb c "-"%char then (true, r) else (false, cs)
                    | [] => (false, cs)
                    end in
  let '(whole, after) := read_digits cs in
  match whole with
  | [] => None
  | _ =>
      let '(decimals, after) :=
        match after with
        | c :: r => if Ascii.eqb c "."%char then read_digits r else ([], after)
        | [] => ([], after)
        end in
      let micros := number (take 6 (decimals ++ replicate 6 0%Z)) in
      let t := (number whole * 1000000 + micros)%Z in
      Some (if neg then (- t)%Z else t, after)
  end.

Definition read_value (cs : list ascii) : option (jvalue * list ascii) :=
  match cs with
  | c :: r =>
      if Ascii.eqb c dq then
        match read_string r with
        | Some (body, after) => Some (JStr (text body), after)
        | None => None
        end
      else
        match read_seconds cs with
        | Some (t, after) => Some (JNum t, after)
        | None => None
        end
  | [] => None
  end.

(** The members of an object, after its opening brace. *)
Fixpoint read_members (fuel : nat) (cs : list ascii)
    (acc : list (string * jvalue)) : option (list (string * jvalue) * list ascii) :=
  match fuel with
  | 0 => None
  | S fuel =>
      match skip_spaces cs with
      | c :: r =>
          if Ascii.eqb c dq then
            match read_string r with
            | Some (key, after_key) =>
                match skip_spaces after_key with
                | colon :: after_colon =>
                    if Ascii.eqb colon ":"%char then
                      match read_value (skip_spaces after_colon) with
                      | Some (v, after_value) =>
                          let acc := acc ++ [(text key, v)] in
                          match skip_spaces after_value with
                          | sep :: after_sep =>
                              if Ascii.eqb sep ","%char
                              then read_members fuel after_sep acc
                              else if Ascii.eqb sep "}"%char
                              then Some (acc, after_sep)
                              else None
                          | [] => None
                          end
                      | None => None
                      end
                    else None
                | [] => None
                end
            | None => None
            end
          else if Ascii.eqb c "}"%char then
            match acc with [] => Some ([], r) | _ => None end
          else None
      | [] => None
      end
  end.

(** The value of the last member with the key, as a dict keeps it. *)
Definition member (key : string) (ms : list (string * jvalue)) : option jvalue :=
  snd <$> last (filter (λ m, m.1 = key) ms).

Definition member_string (key : string) (ms : list (string * jvalue))
    : option string :=
  match member key ms with Some (JStr s) => Some s | _ => None end.

Definition member_number (key : string) (ms : list (string * jvalue))
    : option Z :=
  match member key ms with Some (JNum t) => Some t | _ => None end.

Definition card_of_members (ms : list (string * jvalue)) : option Card :=
  s ← member_string "sentence" ms;
  r ← member_string "romaji" ms;
  e ← member_string "english" ms;
  m ← member_string "romaji_meaning" ms;
  w ← member_string "root_word" ms;
  t ← member_number "next_review" ms;
  Some {| sentence := s; romaji := r; english := e; romaji_meaning := m;
          root_word := w; next_review := t |}.

(** The elements of an array of cards, after its opening bracket. *)
Fixpoint read_cards (fuel : nat) (cs : list ascii) (acc : list Card)
    : option (list Card * list ascii) :=
  match fuel with
  | 0 => None
  | S fuel =>
      match skip_spaces cs with
      | c :: r =>
          if Ascii.eqb c "{"%char then
            match read_members (length r) r [] with
            | Some (ms, after) =>
                match card_of_members ms with
                | Some card =>
                    let acc := acc ++ [card] in
                    match skip_spaces after with
                    | sep :: after_sep =>
                        if Ascii.eqb sep ","%char
                        then read_cards fuel after_sep acc
                        else if Ascii.eqb sep "]"%char
                        then Some (acc, after_sep)
                        else None
                    | [] => None
                    end
                | None => None
                end
            | None => None
            end
          else if Ascii.eqb c "]"%char then
            match acc with [] => Some ([], r) | _ => None end
          else None
      | [] => None
      end
  end.

Definition load (s : string) : option (list Card) :=
  match skip_spaces (chars s) with
  | c :: r =>
      if Ascii.eqb c "["%char then
        match read_cards (length r) r [] with
        | Some (data, after) =>
            match skip_spaces after with
            | [] => Some data
            | _ => None
            end
        | None => None
        end
      else None
  | [] => None
  end.

#[export] Instance plain_json : Json := {| json_dump := dump; json_load := load |}.

End PlainJson.

(** ** Data for the examples *)

(** A clock that starts at some instant and gains a second per read. *)
Definition clock0 (n : nat) : Z := 1700000000000000 + Z.of_nat n * 1000000.

(** No file yet, no clock read yet. *)
Definition world0 : World :=
  {| files := ∅; written := []; clock := clock0; ticks := 0 |}.

Definition lists_of (hard difficult easy unknown : list Card)
    : gmap string (list Card) :=
  list_to_map [("hard", hard); ("difficult", difficult); ("easy", easy);
               ("unknown", unknown)].

Definition kare_wa_hashiru : Example :=
  {| ex_sentence := "彼は走る"; ex_romaji := "kare wa hashiru";
     ex_english := "He runs";
     ex_romaji_meaning := "kare (he) wa (topic) hashiru (runs)" |}.

Definition inu_ga_hashiru : Example :=
  {| ex_sentence := "犬が走る"; ex_romaji := "inu ga hashiru";
     ex_english := "The dog runs";
     ex_romaji_meaning := "inu (dog) ga (subject) hashiru (runs)" |}.

(** The source of the scenario of the specification: the word with one
    example. *)
Definition input_hashiru : list WordGroup :=
  [ {| word := "走る"; examples := [kare_wa_hashiru] |} ].

(** A source in which one sentence comes three times, twice under one
    word and once under another. *)
Definition input_repeated : list WordGroup :=
  [ {| word := "走る"; examples := [kare_wa_hashiru; inu_ga_hashiru; kare_wa_hashiru] |};
    {| word := "彼"; examples := [kare_wa_hashiru] |} ].

(** The card of the first example, due at [t]. *)
Definition kare (t : Z) : Card := new_card "走る" kare_wa_hashiru t.

Definition inu (t : Z) : Card := new_card "走る" inu_ga_hashiru t.

(** ** Basic facts: the monad, lookups, the configuration *)

Lemma bind_ok {A B} (m : M A) (f : A → M B) (w : World) a w' :
  m w = (Ok a, w') → (m ≫= f) w = f a w'.
Proof. intros Hm. unfold mbind, M_bind. by rewrite Hm. Qed.

Lemma bind_raise {A B} (m : M A) (f : A → M B) (w : World) e w' :
  m w = (Raise e, w') → (m ≫= f) w = (Raise e, w').
Proof. intros Hm. unfold mbind, M_bind. by rewrite Hm. Qed.

(** One step of a run: the first computation of a bind returns. *)
Tactic Notation "run" uconstr(H) := rewrite (bind_ok _ _ _ _ _ H).

Section Facts.
Context `{Json}.
Implicit Types (lists : gmap string (list Card)) (w : World).
Implicit Types (c card : Card) (l old dest : list Card) (s n : string).

Lemma getitem_ok {V} (d : gmap string V) k v w :
  d !! k = Some v → getitem d k w = (Ok v, w).
Proof. intros Hk. unfold getitem. by rewrite Hk. Qed.

Lemma getitem_missing {V} (d : gmap string V) k w :
  d !! k = None → getitem d k w = (Raise (KeyError k), w).
Proof. intros Hk. unfold getitem. by rewrite Hk. Qed.

Lemma datetime_now_ok w : datetime_now w = (Ok (clock w (ticks w)), tick w).
Proof. reflexivity. Qed.

Lemma save_list_ok n l w :
  save_list n l w = (Ok (), put_file (list_path n) (json_dump l 4 false) w).
Proof. reflexivity. Qed.

Lemma lists_ok_lookup lists n :
  lists_ok lists → n ∈ LISTS → lists !! n = Some (lists !!! n).
Proof.
  intros Hok Hn. destruct (Hok n Hn) as [l Hl].
  by rewrite (lookup_total_correct _ _ _ Hl).
Qed.

Lemma lists_ok_insert lists n l :
  lists_ok lists → lists_ok (<[n := l]> lists).
Proof.
  intros Hok k Hk. destruct (decide (n = k)) as [->|Hne].
  - rewrite lookup_insert_eq. by eexists.
  - rewrite lookup_insert_ne by done. by apply Hok.
Qed.

Lemma elem_of_LISTS n :
  n ∈ LISTS ↔ n = "hard" ∨ n = "difficult" ∨ n = "easy" ∨ n = "unknown".
Proof. unfold LISTS. rewrite !elem_of_cons, elem_of_nil. tauto. Qed.

Lemma lists_ok_intro lists h d e u :
  lists !! "hard" = Some h → lists !! "difficult" = Some d →
  lists !! "easy" = Some e → lists !! "unknown" = Some u →
  lists_ok lists.
Proof.
  intros Hh Hd He Hu n [->|[->|[->| ->]]]%elem_of_LISTS; by eexists.
Qed.

(** The keys of [REPEAT_INTERVALS] are the four list names. *)
Lemma interval_is_Some n : is_Some (REPEAT_INTERVALS !! n) ↔ n ∈ LISTS.
Proof.
  rewrite elem_of_LISTS. split.
  - intros [i Hi]. unfold REPEAT_INTERVALS in Hi.
    apply elem_of_list_to_map_2 in Hi.
    rewrite !elem_of_cons, elem_of_nil in Hi.
    destruct Hi as [Hi|[Hi|[Hi|[Hi|[]]]]]; inversion Hi; tauto.
  - intros [->|[->|[->| ->]]]; by eexists.
Qed.

(** ** The scheduler *)

Lemma first_due_spec now l :
  match first_due now l with
  | Some c => ∃ pre post, l = pre ++ c :: post ∧
                Forall (λ e, ¬ due now e) pre ∧ due now c
  | None => Forall (λ e, ¬ due now e) l
  end.
Proof.
  induction l as [|e l IH]; simpl; [by constructor|].
  destruct (Z.geb_spec now (next_review e)) as [Hge|Hlt].
  - exists [], l. split; [done|]. split; [constructor|]. unfold due. lia.
  - assert (¬ due now e) as Hne by (unfold due; lia).
    destruct (first_due now l) as [c|].
    + destruct IH as (pre & post & -> & Hpre & Hc).
      exists (e :: pre), post. by repeat split; [constructor|..].
    + by constructor.
Qed.

Lemma scan_lists_spec now names lists w :
  (∀ n, n ∈ names → is_Some (lists !! n)) →
  ∃ r, scan_lists now names lists w = (Ok r, w) ∧
    match r with
    | Some (c, n) => ∃ pre post, entries_of names lists = pre ++ (c, n) :: post ∧
                       Forall (λ e, ¬ due now e.1) pre ∧ due now c
    | None => Forall (λ e, ¬ due now e.1) (entries_of names lists)
    end.
Proof.
  induction names as [|n names IH]; intros Hok; simpl.
  - exists None. split; [done|]. constructor.
  - destruct (Hok n) as [l Hl]; [by left|].
    run (getitem_ok _ _ _ w Hl).
    assert (lists !!! n = l) as Hn by by apply lookup_total_correct.
    unfold entries_of. simpl. rewrite Hn.
    pose proof (first_due_spec now l) as Hfd.
    destruct (first_due now l) as [c|].
    + destruct Hfd as (pre & post & -> & Hpre & Hc).
      exists (Some (c, n)). split; [done|].
      exists ((λ c, (c, n)) <$> pre),
             (((λ c, (c, n)) <$> post) ++ entries_of names lists).
      split; [|split; [|done]].
      * rewrite fmap_app, fmap_cons, <- app_assoc. done.
      * rewrite Forall_fmap. eapply Forall_impl; [exact Hpre|]. done.
    + destruct IH as (r & Hr & Hspec); [intros k Hk; apply Hok; by right|].
      exists r. split; [done|].
      assert (Forall (λ e : Card * string, ¬ due now e.1) ((λ c, (c, n)) <$> l))
        as Hl' by (rewrite Forall_fmap; eapply Forall_impl; [exact Hfd|]; done).
      destruct r as [[c k]|].
      * destruct Hspec as (pre & post & Hsplit & Hpre & Hc).
        exists (((λ c, (c, n)) <$> l) ++ pre), post.
        split; [|split; [|done]].
        -- fold (entries_of names lists). rewrite Hsplit, <- app_assoc. done.
        -- by apply Forall_app.
      * apply Forall_app. done.
Qed.

End Facts.

(** ** Scheduling priority *)

Section Scheduler.
Implicit Types (lists : gmap string (list Card)) (w : World).

Lemma first_due_None now l :
  first_due now l = None → Forall (λ e, ¬ due now e) l.
Proof. intros Hfd. pose proof (first_due_spec now l) as Hs. by rewrite Hfd in Hs. Qed.

(** What the scan over the four names returns, list by list. *)
Lemma scan_lists_LISTS now lists w :
  lists_ok lists →
  scan_lists now LISTS lists w =
    (Ok match first_due now (lists !!! "hard") with
        | Some c => Some (c, "hard")
        | None =>
          match first_due now (lists !!! "difficult") with
          | Some c => Some (c, "difficult")
          | None =>
            match first_due now (lists !!! "easy") with
            | Some c => Some (c, "easy")
            | None =>
              match first_due now (lists !!! "unknown") with
              | Some c => Some (c, "unknown")
              | None => None
              end
            end
          end
        end, w).
Proof.
  intros Hok. unfold LISTS. simpl.
  run (getitem_ok _ _ _ w (lists_ok_lookup lists "hard" Hok ltac:(apply elem_of_LISTS; tauto))).
  destruct (first_due now (lists !!! "hard")); [done|].
  run (getitem_ok _ _ _ w (lists_ok_lookup lists "difficult" Hok ltac:(apply elem_of_LISTS; tauto))).
  destruct (first_due now (lists !!! "difficult")); [done|].
  run (getitem_ok _ _ _ w (lists_ok_lookup lists "easy" Hok ltac:(apply elem_of_LISTS; tauto))).
  destruct (first_due now (lists !!! "easy")); [done|].
  run (getitem_ok _ _ _ w (lists_ok_lookup lists "unknown" Hok ltac:(apply elem_of_LISTS; tauto))).
  by destruct (first_due now (lists !!! "unknown")).
Qed.

(** C1. For a mapping with the four lists, [get_next_card] reads the clock
    once and returns the first entry, in the order hard, difficult, easy,
    unknown and within a list in stored order, whose [next_review] is at
    most that reading, with the name of its list; it returns the none
    sentinel exactly when no card of any list is due. In particular, when
    some card of "easy" is due the card returned is never one of
    "unknown", however old the cards of "unknown" are. *)
Theorem get_next_card_first_due lists w :
  lists_ok lists →
  ∃ r, get_next_card lists w = (Ok r, tick w) ∧
    let now := clock w (ticks w) in
    match r with
    | Some (c, n) =>
        ∃ pre post, entries_in_order lists = pre ++ (c, n) :: post ∧
          Forall (λ e, ¬ due now e.1) pre ∧ due now c
    | None => Forall (λ e, ¬ due now e.1) (entries_in_order lists)
    end ∧
    (r = None ↔ Forall (λ e, ¬ due now e.1) (entries_in_order lists)) ∧
    ((∃ e, e ∈ lists !!! "easy" ∧ due now e) →
     ∀ c, r ≠ Some (c, "unknown")).
Proof.
  intros Hok.
  destruct (scan_lists_spec (clock w (ticks w)) LISTS lists (tick w))
    as (r & Hr & Hspec); [exact Hok|].
  exists r. split.
  { unfold get_next_card. by run (datetime_now_ok w). }
  simpl. split; [exact Hspec|]. split.
  - split.
    + intros ->. exact Hspec.
    + intros Hall. destruct r as [[c n]|]; [|done].
      destruct Hspec as (pre & post & Hsplit & _ & Hc).
      unfold entries_in_order in Hall. rewrite Hsplit in Hall.
      apply Forall_app in Hall as [_ Hall].
      apply Forall_cons in Hall as [Hnc _]. by destruct Hnc.
  - intros (e & He & Hdue) c ->.
    rewrite (scan_lists_LISTS _ _ _ Hok) in Hr.
    destruct (first_due _ (lists !!! "hard")); [congruence|].
    destruct (first_due _ (lists !!! "difficult")); [congruence|].
    destruct (first_due _ (lists !!! "easy")) eqn:Heasy; [congruence|].
    apply first_due_None in Heasy.
    rewrite Forall_forall in Heasy. by apply (Heasy e He).
Qed.

End Scheduler.

(** ** The card transition *)

Section Transition.
Context `{Json}.
Implicit Types (lists : gmap string (list Card)) (w : World).
Implicit Types (c card : Card) (l old dest : list Card) (s n : string).

Lemma spec_interval_lookup n :
  n ∈ LISTS → REPEAT_INTERVALS !! n = Some (spec_interval n).
Proof. intros [->|[->|[->| ->]]]%elem_of_LISTS; reflexivity. Qed.

Lemma save_all_ok names lists w :
  (∀ n, n ∈ names → is_Some (lists !! n)) →
  save_all names lists w = (Ok (), saved names lists w).
Proof.
  revert w. induction names as [|n names IH]; intros w Hok; [done|].
  destruct (Hok n) as [l Hl]; [by left|]. simpl.
  run (getitem_ok _ _ _ w Hl).
  run (save_list_ok n l w).
  rewrite IH by (intros k Hk; apply Hok; by right).
  by rewrite (lookup_total_correct _ _ _ Hl).
Qed.




(** The result of a transition that raises nothing. *)
Lemma move_card_ok card from_list to_list lists w old :
  lists_ok lists → lists !! from_list = Some old → to_list ∈ LISTS →
  let lists1 := <[from_list := remove_sentence (sentence card) old]> lists in
  let card' := set_next_review card
                 (clock w (ticks w) + spec_interval to_list * minute) in
  let lists2 := <[to_list := lists1 !!! to_list ++ [card']]> lists1 in
  move_card card from_list to_list lists w = (Ok lists2, saved LISTS lists2 (tick w)).
Proof.
  intros Hok Hfrom Hto lists1 card' lists2. unfold move_card.
  run (getitem_ok _ _ _ w Hfrom).
  run (getitem_ok _ _ _ w (spec_interval_lookup _ Hto)).
  run (datetime_now_ok w).
  assert (lists_ok lists1) as Hok1 by by apply lists_ok_insert.
  run (getitem_ok _ _ _ (tick w) (lists_ok_lookup _ _ Hok1 Hto)).
  fold lists1 card' lists2.
  assert (lists_ok lists2) as Hok2 by by apply lists_ok_insert.
  by run (save_all_ok LISTS lists2 (tick w) Hok2).
Qed.

(** The transition raises [KeyError] exactly when a key is missing. *)
Lemma move_card_missing_from card from_list to_list lists w :
  lists !! from_list = None →
  move_card card from_list to_list lists w = (Raise (KeyError from_list), w).
Proof.
  intros Hfrom. unfold move_card.
  by rewrite (bind_raise _ _ _ _ _ (getitem_missing _ _ w Hfrom)).
Qed.

Lemma length_remove_sentence s l :
  length (remove_sentence s l) + occurrences s l = length l.
Proof.
  unfold remove_sentence, occurrences.
  induction l as [|c l IH]; [done|].
  rewrite !filter_cons. destruct (decide (sentence c = s)) as [Heq|Hne].
  - rewrite decide_False by (intros Hn; by apply Hn). simpl. lia.
  - rewrite decide_True by done. simpl. lia.
Qed.

Lemma remove_sentence_absent s l :
  s ∉ sentences l → remove_sentence s l = l.
Proof.
  unfold remove_sentence, sentences. induction l as [|c l IH]; [done|].
  rewrite fmap_cons, not_elem_of_cons. intros [Hne Hnin].
  rewrite filter_cons, decide_True by done. by rewrite IH.
Qed.

Lemma occurrences_absent s l : s ∉ sentences l ↔ occurrences s l = 0.
Proof.
  unfold occurrences, sentences. induction l as [|c l IH].
  { simpl. split; [done|]. intros _. apply not_elem_of_nil. }
  rewrite fmap_cons, not_elem_of_cons, filter_cons.
  destruct (decide (sentence c = s)) as [Heq|Hne]; simpl.
  - split; [intros [Hn _]; by destruct Hn|lia].
  - rewrite <- IH. split; [by intros [_ ?]|]. intros ?. split; [congruence|done].
Qed.

Lemma remove_sentence_gone s l : s ∉ sentences (remove_sentence s l).
Proof.
  unfold sentences, remove_sentence. rewrite list_elem_of_fmap.
  intros (c & -> & Hc). apply list_elem_of_filter in Hc as [Hne _]. by apply Hne.
Qed.

Lemma elem_of_remove_sentence c s l :
  c ∈ remove_sentence s l ↔ sentence c ≠ s ∧ c ∈ l.
Proof. unfold remove_sentence. by rewrite list_elem_of_filter. Qed.

End Transition.

Section TransitionClaims.
Context `{Json}.
Implicit Types (lists : gmap string (list Card)) (w : World).
Implicit Types (c card : Card) (l old dest : list Card) (s n : string).

Lemma save_all_Ok_inv names lists w u w' :
  save_all names lists w = (Ok u, w') → ∀ n, n ∈ names → is_Some (lists !! n).
Proof.
  revert w. induction names as [|k names IH]; intros w Hs n Hn.
  { by apply elem_of_nil in Hn. }
  simpl in Hs. unfold mbind, M_bind in Hs.
  destruct (lists !! k) as [l|] eqn:Hk.
  - rewrite (getitem_ok _ _ _ w Hk) in Hs. rewrite save_list_ok in Hs.
    apply elem_of_cons in Hn as [->|Hn]; [by eexists|].
    by eapply IH.
  - by rewrite (getitem_missing _ _ w Hk) in Hs.
Qed.

(** A transition that returns was run on a mapping with the four lists
    and the list it takes the card from, towards one of the four. *)
Lemma move_card_Ok_inv card from_list to_list lists w lists' w' :
  move_card card from_list to_list lists w = (Ok lists', w') →
  lists_ok lists ∧ is_Some (lists !! from_list) ∧ to_list ∈ LISTS.
Proof.
  intros Hm. unfold move_card in Hm. unfold mbind, M_bind in Hm.
  destruct (lists !! from_list) as [old|] eqn:Hfrom;
    [|by rewrite (getitem_missing _ _ w Hfrom) in Hm].
  rewrite (getitem_ok _ _ _ w Hfrom) in Hm.
  destruct (REPEAT_INTERVALS !! to_list) as [i|] eqn:Hi;
    [|by rewrite (getitem_missing _ _ w Hi) in Hm].
  rewrite (getitem_ok _ _ _ w Hi) in Hm. rewrite datetime_now_ok in Hm.
  assert (to_list ∈ LISTS) as Hto by (apply interval_is_Some; by eexists).
  set (lists1 := <[from_list := remove_sentence (sentence card) old]> lists) in Hm.
  destruct (lists1 !! to_list) as [dest|] eqn:Hdest;
    [|by rewrite (getitem_missing _ _ (tick w) Hdest) in Hm].
  rewrite (getitem_ok _ _ _ (tick w) Hdest) in Hm.
  match type of Hm with context [save_all LISTS ?m ?v] =>
    destruct (save_all LISTS m v) as [[u|e] w2] eqn:Hsave; [|done] end.
  split; [|split; [by eexists|done]].
  intros n Hn. pose proof (save_all_Ok_inv _ _ _ _ _ Hsave n Hn) as Hsome.
  destruct (decide (n = from_list)) as [->|Hnf]; [by eexists|].
  destruct (decide (to_list = n)) as [->|Hnt].
  - subst lists1. rewrite lookup_insert_ne in Hdest by done. by eexists.
  - subst lists1. by rewrite !lookup_insert_ne in Hsome by done.
Qed.


(** C6. When no entry of [from_list] carries the card's sentence, the
    transition raises nothing: the removal pass returns [from_list] as it
    was, and the mapping returned is the given one with the stamped card
    appended to [to_list]. *)
Theorem move_card_absent_is_silent card from_list to_list lists w old :
  lists_ok lists → lists !! from_list = Some old → to_list ∈ LISTS →
  sentence card ∉ sentences old →
  let card' := set_next_review card
                 (clock w (ticks w) + spec_interval to_list * minute) in
  remove_sentence (sentence card) old = old ∧
  ∃ w', move_card card from_list to_list lists w =
          (Ok (<[to_list := lists !!! to_list ++ [card']]> lists), w').
Proof.
  intros Hok Hfrom Hto Habs card'.
  pose proof (remove_sentence_absent _ _ Habs) as Hid.
  split; [done|]. eexists.
  rewrite (move_card_ok _ _ _ _ _ _ Hok Hfrom Hto).
  rewrite Hid, (insert_id _ _ _ Hfrom). done.
Qed.

(** C10. When more than one entry of [from_list] carries the card's
    sentence, the transition removes every one of them and appends one
    card to [to_list]: afterwards no entry of [from_list] other than the
    appended one (when [to_list] is [from_list]) carries the sentence,
    the entries with other sentences are all kept, and the two lists
    together have lost one entry less than the number removed, which is
    more than one entry as soon as three entries carried the sentence. *)
Theorem move_card_removes_every_duplicate card from_list to_list lists w old :
  lists_ok lists → lists !! from_list = Some old → to_list ∈ LISTS →
  1 < occurrences (sentence card) old →
  let card' := set_next_review card
                 (clock w (ticks w) + spec_interval to_list * minute) in
  let kept := remove_sentence (sentence card) old in
  ∃ lists' w',
    move_card card from_list to_list lists w = (Ok lists', w') ∧
    (sentence card ∉ sentences kept) ∧
    (∀ c, c ∈ kept ↔ (sentence c ≠ sentence card ∧ c ∈ old)) ∧
    length kept + occurrences (sentence card) old = length old ∧
    (from_list ≠ to_list →
       lists' !! from_list = Some kept ∧
       lists' !! to_list = Some (lists !!! to_list ++ [card']) ∧
       length (lists' !!! from_list) + length (lists' !!! to_list)
         + occurrences (sentence card) old
       = length old + length (lists !!! to_list) + 1 ∧
       (2 < occurrences (sentence card) old →
        length (lists' !!! from_list) + length (lists' !!! to_list) + 1
        < length old + length (lists !!! to_list))) ∧
    (from_list = to_list → lists' !! from_list = Some (kept ++ [card'])).
Proof.
  intros Hok Hfrom Hto Hdup card' kept.
  pose proof (length_remove_sentence (sentence card) old) as Hlen.
  eexists _, _. split; [by apply move_card_ok|].
  split; [apply remove_sentence_gone|].
  split; [intros c; apply elem_of_remove_sentence|].
  split; [done|]. split.
  - intros Hne.
    rewrite lookup_insert_ne, lookup_insert_eq by done.
    rewrite (lookup_total_insert_ne _ from_list to_list) by done.
    rewrite lookup_insert_eq.
    rewrite lookup_total_insert_ne, !lookup_total_insert_eq by done.
    rewrite length_app. subst kept. simpl. repeat split; lia.
  - intros ->. by rewrite lookup_total_insert_eq, lookup_insert_eq.
Qed.

End TransitionClaims.

(** ** The merge step *)

Section Merge.
Context `{Json}.
Implicit Types (lists : gmap string (list Card)) (w : World).
Implicit Types (c card : Card) (l old dest : list Card) (s n : string).
Implicit Types (exs : list (string * Example)) (present : list string).

Lemma advance_0 w : advance 0 w = w.
Proof. destruct w. unfold advance. simpl. by rewrite Nat.add_0_r. Qed.

Lemma advance_tick k w : advance k (tick w) = advance (S k) w.
Proof. unfold advance, tick. simpl. f_equal. lia. Qed.

Lemma sentences_app l1 l2 : sentences (l1 ++ l2) = sentences l1 ++ sentences l2.
Proof. apply fmap_app. Qed.

(** Appending to "unknown" appends to the cards taken all together. *)
Lemma all_cards_append lists unknown news :
  lists !! "unknown" = Some unknown →
  all_cards (<["unknown" := unknown ++ news]> lists) = all_cards lists ++ news.
Proof.
  intros Hu. unfold all_cards, LISTS. simpl.
  rewrite !lookup_total_insert_ne by done. rewrite lookup_total_insert_eq.
  rewrite (lookup_total_correct _ _ _ Hu). by rewrite !app_nil_r, <- !app_assoc.
Qed.

(** The first loop nest collects the sentences of the lists it visits. *)
Lemma tracked_sentences_ok names lists acc w :
  (∀ n, n ∈ names → is_Some (lists !! n)) →
  ∃ T, tracked_sentences names lists acc w = (Ok T, w) ∧
    ∀ s, s ∈ T ↔ s ∈ acc ∨ s ∈ sentences (n ← names; lists !!! n).
Proof.
  revert acc. induction names as [|n names IH]; intros acc Hok; simpl.
  { exists acc. split; [done|]. intros s. rewrite elem_of_nil. tauto. }
  destruct (Hok n) as [l Hl]; [by left|].
  run (getitem_ok _ _ _ w Hl).
  destruct (IH (foldl (λ (a : gset string) entry, a ∪ {[sentence entry]}) acc l))
    as (T & HT & Hmem); [intros k Hk; apply Hok; by right|].
  exists T. split; [done|]. intros s. rewrite Hmem.
  rewrite (lookup_total_correct _ _ _ Hl), sentences_app, elem_of_app.
  assert (∀ (a : gset string),
    s ∈ foldl (λ (a : gset string) entry, a ∪ {[sentence entry]}) a l ↔ s ∈ a ∨ s ∈ sentences l)
    as Hfold.
  { clear. induction l as [|c l IHl]; intros a; simpl.
    - rewrite elem_of_nil. tauto.
    - rewrite IHl. unfold sentences. rewrite elem_of_union, elem_of_singleton, elem_of_cons. tauto. }
  rewrite Hfold. tauto.
Qed.

Lemma tracked_sentences_Ok_inv names lists acc w T w' :
  tracked_sentences names lists acc w = (Ok T, w') →
  ∀ n, n ∈ names → is_Some (lists !! n).
Proof.
  revert acc. induction names as [|k names IH]; intros acc Ht n Hn.
  { by apply elem_of_nil in Hn. }
  simpl in Ht. unfold mbind, M_bind in Ht.
  destruct (lists !! k) as [l|] eqn:Hk.
  - rewrite (getitem_ok _ _ _ w Hk) in Ht.
    apply elem_of_cons in Hn as [->|Hn]; [by eexists|]. by eapply IH.
  - by rewrite (getitem_missing _ _ w Hk) in Ht.
Qed.

(** The inner loop, against the merge of the specification: the tracked
    set and the sentences present in the lists stay the same set. *)
Lemma add_examples_spec root (es : list Example) (st : MergeState) w present unknown :
  m_lists st !! "unknown" = Some unknown →
  (∀ s, s ∈ all_tracked_sentences st ↔ s ∈ present) →
  let news := spec_new_cards (clock w) (ticks w) present ((λ e, (root, e)) <$> es) in
  ∃ st', add_examples root es st w = (Ok st', advance (length news) w) ∧
    m_lists st' = <["unknown" := unknown ++ news]> (m_lists st) ∧
    (∀ s, s ∈ all_tracked_sentences st' ↔ s ∈ present ++ sentences news) ∧
    changes_made st' = changes_made st || bool_decide (news ≠ []).
Proof.
  revert st w present unknown.
  induction es as [|e es IH]; intros st w present unknown Hu Htr; cbv zeta; simpl.
  { exists st. rewrite advance_0, app_nil_r, app_nil_r, (insert_id _ _ _ Hu).
    by rewrite orb_false_r. }
  destruct (decide (ex_sentence e ∈ all_tracked_sentences st)) as [Hin|Hnin].
  - rewrite decide_True by (by apply Htr).
    assert (add_example root e st w = (Ok st, w)) as Hstep.
    { unfold add_example. by rewrite decide_True by done. }
    run Hstep. by apply IH.
  - rewrite decide_False by (by rewrite <- Htr).
    set (c := new_card root e (clock w (ticks w))).
    set (st1 := {| m_lists := <["unknown" := unknown ++ [c]]> (m_lists st);
                   all_tracked_sentences := all_tracked_sentences st ∪ {[ex_sentence e]};
                   changes_made := true |}).
    assert (add_example root e st w = (Ok st1, tick w)) as Hstep.
    { unfold add_example. rewrite decide_False by done.
      run (datetime_now_ok w).
      by run (getitem_ok _ _ _ (tick w) Hu). }
    run Hstep.
    destruct (IH st1 (tick w) (present ++ [ex_sentence e]) (unknown ++ [c]))
      as (st' & Hrun & Hl & Ht & Hc).
    { apply lookup_insert_eq. }
    { intros s. simpl. rewrite elem_of_union, elem_of_singleton, elem_of_app,
        list_elem_of_singleton. by rewrite Htr. }
    exists st'. simpl in *. rewrite Hrun, advance_tick. split; [done|].
    split. { rewrite Hl. by rewrite insert_insert_eq, <- app_assoc. }
    split. { intros s. rewrite Ht. unfold sentences. simpl. by rewrite <- app_assoc. }
    rewrite Hc. by rewrite orb_true_r.
Qed.

Lemma spec_new_cards_app clk k present exs1 exs2 :
  spec_new_cards clk k present (exs1 ++ exs2) =
  let n1 := spec_new_cards clk k present exs1 in
  n1 ++ spec_new_cards clk (k + length n1) (present ++ sentences n1) exs2.
Proof.
  revert k present. induction exs1 as [|[r e] exs1 IH]; intros k present; simpl.
  { by rewrite Nat.add_0_r, app_nil_r. }
  destruct (decide (ex_sentence e ∈ present)); [apply IH|].
  simpl. rewrite IH. simpl. unfold sentences. simpl.
  rewrite <- app_assoc. simpl. by rewrite Nat.add_succ_r.
Qed.

Lemma flatten_input_cons wg input :
  flatten_input (wg :: input) =
  ((λ e, (word wg, e)) <$> examples wg) ++ flatten_input input.
Proof. reflexivity. Qed.

(** The outer loop, against the merge of the specification. *)
Lemma add_word_groups_spec input (st : MergeState) w present unknown :
  m_lists st !! "unknown" = Some unknown →
  (∀ s, s ∈ all_tracked_sentences st ↔ s ∈ present) →
  let news := spec_new_cards (clock w) (ticks w) present (flatten_input input) in
  ∃ st', add_word_groups input st w = (Ok st', advance (length news) w) ∧
    m_lists st' = <["unknown" := unknown ++ news]> (m_lists st) ∧
    (∀ s, s ∈ all_tracked_sentences st' ↔ s ∈ present ++ sentences news) ∧
    changes_made st' = changes_made st || bool_decide (news ≠ []).
Proof.
  revert st w present unknown.
  induction input as [|wg input IH]; intros st w present unknown Hu Htr; cbv zeta.
  { exists st. simpl. rewrite advance_0, !app_nil_r, (insert_id _ _ _ Hu).
    by rewrite orb_false_r. }
  rewrite flatten_input_cons, spec_new_cards_app. cbv zeta.
  destruct (add_examples_spec (word wg) (examples wg) st w present unknown Hu Htr)
    as (st1 & Hrun1 & Hl1 & Ht1 & Hc1).
  set (n1 := spec_new_cards (clock w) (ticks w) present
               ((λ e, (word wg, e)) <$> examples wg)) in *.
  simpl. run Hrun1.
  destruct (IH st1 (advance (length n1) w) (present ++ sentences n1) (unknown ++ n1))
    as (st' & Hrun & Hl & Ht & Hc).
  { rewrite Hl1. apply lookup_insert_eq. }
  { exact Ht1. }
  simpl in Hrun, Hl, Ht, Hc.
  set (n2 := spec_new_cards (clock w) (ticks w + length n1)
               (present ++ sentences n1) (flatten_input input)) in *.
  exists st'. split.
  { rewrite Hrun. f_equal. unfold advance. simpl. f_equal. rewrite length_app. lia. }
  split. { rewrite Hl, Hl1. by rewrite insert_insert_eq, <- app_assoc. }
  split. { intros s. rewrite Ht. by rewrite sentences_app, <- app_assoc. }
  rewrite Hc, Hc1. rewrite <- orb_assoc. f_equal.
  destruct n1, n2; done.
Qed.

(** The result of a merge that raises nothing. *)
Lemma merge_ok input lists w :
  lists_ok lists →
  let news := spec_new_cards (clock w) (ticks w) (sentences (all_cards lists))
                (flatten_input input) in
  let unknown' := lists !!! "unknown" ++ news in
  add_new_examples_to_lists input lists w =
    (Ok (<["unknown" := unknown']> lists),
     if decide (news = []) then w
     else put_file (list_path "unknown") (json_dump unknown' 4 false)
            (advance (length news) w)).
Proof.
  intros Hok news unknown'. unfold add_new_examples_to_lists.
  destruct (tracked_sentences_ok LISTS lists ∅ w Hok) as (T & HT & Hmem).
  run HT.
  assert (lists !! "unknown" = Some (lists !!! "unknown")) as Hu
    by (apply lists_ok_lookup; [done|apply elem_of_LISTS; tauto]).
  destruct (add_word_groups_spec input
              {| m_lists := lists; all_tracked_sentences := T; changes_made := false |}
              w (sentences (all_cards lists)) (lists !!! "unknown") Hu)
    as (st' & Hrun & Hl & Ht & Hc).
  { intros s. rewrite Hmem. fold (all_cards lists). rewrite elem_of_empty. tauto. }
  simpl in Hrun, Hl, Hc. fold news in Hrun, Hl, Hc. fold unknown' in Hl.
  run Hrun. rewrite Hc.
  destruct (decide (news = [])) as [Hnil|Hnew].
  - rewrite bool_decide_false by (intros Hn; by apply Hn). simpl.
    unfold mret, M_ret. by rewrite Hnil, advance_0, Hl.
  - rewrite bool_decide_true by done. simpl.
    assert (m_lists st' !! "unknown" = Some unknown') as Hu'
      by (rewrite Hl; apply lookup_insert_eq).
    run (getitem_ok _ _ _ _ Hu').
    run (save_list_ok _ _ _).
    unfold mret, M_ret. by rewrite Hl.
Qed.

(** A merge that returns was run on a mapping with the four lists. *)
Lemma merge_Ok_inv input lists w lists' w' :
  add_new_examples_to_lists input lists w = (Ok lists', w') → lists_ok lists.
Proof.
  intros Hm. unfold add_new_examples_to_lists in Hm.
  unfold mbind at 1, M_bind at 1 in Hm.
  destruct (tracked_sentences LISTS lists ∅ w) as [[T|e] w1] eqn:HT; [|done].
  intros n Hn. by eapply tracked_sentences_Ok_inv.
Qed.

End Merge.

(** ** Which examples get a card *)

Section Selection.
Implicit Types (exs sel : list (string * Example)) (present : list string).
Implicit Types (x : string * Example) (s : string).

Lemma spec_new_cards_stamp clk k present exs :
  spec_new_cards clk k present exs = stamp clk k (spec_new_examples present exs).
Proof.
  revert k present. induction exs as [|[r e] exs IH]; intros k present; [done|].
  simpl. destruct (decide (ex_sentence e ∈ present)); [apply IH|].
  unfold stamp. rewrite imap_cons. simpl. rewrite Nat.add_0_r. f_equal.
  rewrite IH. unfold stamp. apply imap_ext. intros i x _. simpl.
  by rewrite Nat.add_succ_r.
Qed.

Lemma sentences_stamp clk k sel : sentences (stamp clk k sel) = ex_sentences sel.
Proof.
  unfold sentences, stamp, ex_sentences. revert k.
  induction sel as [|x sel IH]; intros k; [done|].
  rewrite imap_cons, !fmap_cons. f_equal.
  rewrite <- (IH (S k)). f_equal. apply imap_ext. intros i y _. simpl.
  by rewrite Nat.add_succ_r.
Qed.

Lemma length_stamp clk k sel : length (stamp clk k sel) = length sel.
Proof. apply length_imap. Qed.

Lemma lookup_stamp clk k sel i c :
  stamp clk k sel !! i = Some c →
  ∃ x, sel !! i = Some x ∧ c = new_card x.1 x.2 (clk (k + i)).
Proof. unfold stamp. by rewrite list_lookup_imap_Some. Qed.

Lemma spec_new_examples_sublist present exs :
  spec_new_examples present exs `sublist_of` exs.
Proof.
  revert present. induction exs as [|[r e] exs IH]; intros present; [done|].
  simpl. destruct (decide (ex_sentence e ∈ present)).
  - by apply sublist_cons.
  - by apply sublist_skip.
Qed.

(** A chosen example is new, and it is the first of its sentence. *)
Lemma spec_new_examples_first present exs x :
  x ∈ spec_new_examples present exs →
  (ex_sentence x.2 ∉ present) ∧
  (∃ pre post, exs = pre ++ x :: post ∧ ex_sentence x.2 ∉ ex_sentences pre).
Proof.
  revert present. induction exs as [|[r e] exs IH]; intros present; simpl.
  { by intros ?%elem_of_nil. }
  destruct (decide (ex_sentence e ∈ present)) as [Hin|Hnin].
  - intros Hx. destruct (IH _ Hx) as (Hfresh & pre & post & -> & Hpre).
    split; [done|]. exists ((r, e) :: pre), post. split; [done|].
    unfold ex_sentences. rewrite fmap_cons, not_elem_of_cons. simpl.
    split; [|done]. intros Heq. apply Hfresh. by rewrite Heq.
  - intros [->|Hx]%elem_of_cons.
    + split; [done|]. exists [], exs. split; [done|]. apply not_elem_of_nil.
    + destruct (IH _ Hx) as (Hfresh & pre & post & -> & Hpre).
      rewrite not_elem_of_app, list_elem_of_singleton in Hfresh.
      destruct Hfresh as [Hfresh Hne]. split; [done|].
      exists ((r, e) :: pre), post. split; [done|].
      unfold ex_sentences. rewrite fmap_cons, not_elem_of_cons. by simpl.
Qed.

(** The first example of a sentence that is not present is chosen. *)
Lemma spec_new_examples_complete present pre x post :
  ex_sentence x.2 ∉ present → ex_sentence x.2 ∉ ex_sentences pre →
  x ∈ spec_new_examples present (pre ++ x :: post).
Proof.
  revert present. induction pre as [|[r e] pre IH]; intros present Hfresh Hpre; simpl.
  - destruct x as [r e]. simpl in *. rewrite decide_False by done. by left.
  - unfold ex_sentences in Hpre. rewrite fmap_cons, not_elem_of_cons in Hpre.
    simpl in Hpre. destruct Hpre as [Hne Hpre].
    destruct (decide (ex_sentence e ∈ present)); [by apply IH|].
    right. apply IH; [|done].
    rewrite not_elem_of_app, list_elem_of_singleton. done.
Qed.

Lemma spec_new_examples_NoDup present exs :
  NoDup (ex_sentences (spec_new_examples present exs)).
Proof.
  revert present. induction exs as [|[r e] exs IH]; intros present; simpl.
  { constructor. }
  destruct (decide (ex_sentence e ∈ present)); [apply IH|].
  unfold ex_sentences. rewrite fmap_cons. simpl. constructor; [|apply IH].
  rewrite list_elem_of_fmap. intros (x & Heq & Hx).
  apply spec_new_examples_first in Hx as [Hfresh _].
  apply Hfresh. rewrite <- Heq. apply elem_of_app. right. by left.
Qed.

(** After the merge every sentence of the input is present. *)
Lemma spec_new_examples_cover present exs x :
  x ∈ exs →
  ex_sentence x.2 ∈ present ++ ex_sentences (spec_new_examples present exs).
Proof.
  revert present. induction exs as [|[r e] exs IH]; intros present; simpl.
  { by intros ?%elem_of_nil. }
  intros Hx. destruct (decide (ex_sentence e ∈ present)) as [Hin|Hnin].
  - apply elem_of_cons in Hx as [->|Hx]; [|by apply IH].
    apply elem_of_app. by left.
  - unfold ex_sentences. rewrite fmap_cons. simpl.
    apply elem_of_cons in Hx as [->|Hx].
    + apply elem_of_app. right. by left.
    + specialize (IH (present ++ [ex_sentence e]) Hx).
      rewrite <- app_assoc in IH. exact IH.
Qed.

(** Nothing is chosen when every sentence of the input is present. *)
Lemma spec_new_examples_none present exs :
  (∀ x, x ∈ exs → ex_sentence x.2 ∈ present) →
  spec_new_examples present exs = [].
Proof.
  induction exs as [|[r e] exs IH]; intros Hall; [done|]. simpl.
  rewrite decide_True by (apply (Hall (r, e)); by left).
  apply IH. intros x Hx. apply Hall. by right.
Qed.

Lemma NoDup_occurrences (l : list Card) s :
  NoDup (sentences l) → occurrences s l ≤ 1.
Proof.
  unfold sentences, occurrences. induction l as [|c l IH]; [simpl; lia|].
  rewrite fmap_cons, NoDup_cons, filter_cons. intros [Hnin Hnd].
  destruct (decide (sentence c = s)) as [<-|Hne]; [|by apply IH].
  simpl. apply (occurrences_absent (sentence c) l) in Hnin.
  unfold occurrences in Hnin. lia.
Qed.

End Selection.

Section MergeClaims.
Context `{Json}.
Implicit Types (lists : gmap string (list Card)) (w : World).
Implicit Types (c card : Card) (l : list Card) (s n : string).
Implicit Types (x : string * Example).

(** The result of a merge, with the chosen examples and their stamps. *)
Lemma merge_ok_stamp input lists w :
  lists_ok lists →
  let news := stamp (clock w) (ticks w)
                (spec_new_examples (sentences (all_cards lists)) (flatten_input input)) in
  let unknown' := lists !!! "unknown" ++ news in
  add_new_examples_to_lists input lists w =
    (Ok (<["unknown" := unknown']> lists),
     if decide (news = []) then w
     else put_file (list_path "unknown") (json_dump unknown' 4 false)
            (advance (length news) w)).
Proof.
  intros Hok. cbv zeta. rewrite <- spec_new_cards_stamp. by apply merge_ok.
Qed.

(** C3. On a mapping with the four lists the merge returns, and: the
    examples that get a card are, in input order, those whose sentence is
    in none of the four lists and is not the sentence of an earlier
    example (which by then is in "unknown"); the card of each carries the
    example's four fields, the word of its group as [root_word] and, as
    [next_review], the clock reading taken when it was made; the cards are
    appended to "unknown" in that order and no other list changes; and
    "unknown" is written, once, if and only if at least one card was
    added. *)
Theorem merge_adds_new_examples input lists w :
  lists_ok lists →
  let present := sentences (all_cards lists) in
  let sel := spec_new_examples present (flatten_input input) in
  let news := stamp (clock w) (ticks w) sel in
  ∃ lists' w',
    add_new_examples_to_lists input lists w = (Ok lists', w') ∧
    lists' !! "unknown" = Some (lists !!! "unknown" ++ news) ∧
    (∀ n, n ≠ "unknown" → lists' !! n = lists !! n) ∧
    sel `sublist_of` flatten_input input ∧
    (∀ x, x ∈ sel ↔
       ∃ pre post, flatten_input input = pre ++ x :: post ∧
         (ex_sentence x.2 ∉ present) ∧ (ex_sentence x.2 ∉ ex_sentences pre)) ∧
    length news = length sel ∧
    (∀ i c, news !! i = Some c →
       ∃ x, sel !! i = Some x ∧
         sentence c = ex_sentence x.2 ∧ romaji c = ex_romaji x.2 ∧
         english c = ex_english x.2 ∧
         romaji_meaning c = ex_romaji_meaning x.2 ∧
         root_word c = x.1 ∧
         next_review c = clock w (ticks w + i)) ∧
    ticks w' = ticks w + length news ∧
    written w' = written w ++
      (if decide (news = []) then []
       else [(list_path "unknown",
              json_dump (lists !!! "unknown" ++ news) 4 false)]) ∧
    (news ≠ [] →
       files w' !! list_path "unknown" =
         Some (json_dump (lists !!! "unknown" ++ news) 4 false)) ∧
    (news = [] → files w' = files w).
Proof.
  intros Hok present sel news.
  eexists _, _. split; [by apply merge_ok_stamp|].
  fold present sel news.
  split; [apply lookup_insert_eq|].
  split; [intros n Hn; by rewrite lookup_insert_ne|].
  split; [apply spec_new_examples_sublist|].
  split.
  { intros x. split.
    - intros Hx. apply spec_new_examples_first in Hx
        as (Hfresh & pre & post & Hsplit & Hpre). by exists pre, post.
    - intros (pre & post & Hsplit & Hfresh & Hpre).
      unfold sel. rewrite Hsplit. by apply spec_new_examples_complete. }
  split; [apply length_stamp|].
  split.
  { intros i c Hc. apply lookup_stamp in Hc as (x & Hx & ->). by exists x. }
  destruct (decide (news = [])) as [Hnil|Hnew].
  - rewrite Hnil. simpl. rewrite Nat.add_0_r, app_nil_r. by repeat split.
  - split; [done|]. split; [done|]. split; [|done].
    intros _. apply lookup_insert_eq.
Qed.

(** C5. A second merge of the same input, in whatever world, changes
    nothing: it returns the mapping the first merge returned, reads no
    clock and writes no file. And a merge only appends: every list of the
    given mapping is found again at the front of the same list of the
    result, unchanged, the lists other than "unknown" being exactly what
    they were. *)
Theorem merge_idempotent input lists w lists1 w1 :
  add_new_examples_to_lists input lists w = (Ok lists1, w1) →
  (∀ w2, add_new_examples_to_lists input lists1 w2 = (Ok lists1, w2)) ∧
  (∀ n l, lists !! n = Some l →
     ∃ news, lists1 !! n = Some (l ++ news) ∧ (n ≠ "unknown" → news = [])).
Proof.
  intros Hm. pose proof (merge_Ok_inv _ _ _ _ _ Hm) as Hok.
  rewrite (merge_ok_stamp input lists w Hok) in Hm.
  set (sel := spec_new_examples (sentences (all_cards lists)) (flatten_input input)) in *.
  set (news := stamp (clock w) (ticks w) sel) in *.
  assert (lists1 = <["unknown" := lists !!! "unknown" ++ news]> lists) as Hl1
    by congruence.
  assert (lists !! "unknown" = Some (lists !!! "unknown")) as Hu
    by (apply lists_ok_lookup; [done|apply elem_of_LISTS; tauto]).
  split.
  - intros w2.
    assert (lists_ok lists1) as Hok1 by (rewrite Hl1; by apply lists_ok_insert).
    rewrite (merge_ok_stamp input lists1 w2 Hok1).
    assert (spec_new_examples (sentences (all_cards lists1)) (flatten_input input) = [])
      as Hnone.
    { apply spec_new_examples_none. intros x Hx.
      rewrite Hl1, (all_cards_append _ _ _ Hu), sentences_app.
      unfold news. rewrite sentences_stamp.
      by apply spec_new_examples_cover. }
    rewrite Hnone. simpl. rewrite app_nil_r. do 2 f_equal.
    apply insert_id. by apply lists_ok_lookup; [|apply elem_of_LISTS; tauto].
  - intros n l Hl. destruct (decide (n = "unknown")) as [->|Hne].
    + exists news. rewrite Hl1, lookup_insert_eq.
      rewrite (lookup_total_correct _ _ _ Hl). done.
    + exists []. rewrite Hl1, lookup_insert_ne, app_nil_r by done. done.
Qed.

(** C9. In one merge run at most one card is made for a sentence,
    however many examples of the input carry it, and the card is made
    from the first of them in input order: it has that example's fields
    and the word of that example's group. *)
Theorem merge_one_card_per_sentence input lists w lists' w' :
  add_new_examples_to_lists input lists w = (Ok lists', w') →
  ∃ news,
    lists' !! "unknown" = Some (lists !!! "unknown" ++ news) ∧
    NoDup (sentences news) ∧
    (∀ s, occurrences s news ≤ 1) ∧
    (∀ c, c ∈ news →
       ∃ pre r e post t,
         flatten_input input = pre ++ (r, e) :: post ∧
         (ex_sentence e ∉ ex_sentences pre) ∧
         c = new_card r e t).
Proof.
  intros Hm. pose proof (merge_Ok_inv _ _ _ _ _ Hm) as Hok.
  rewrite (merge_ok_stamp input lists w Hok) in Hm.
  set (sel := spec_new_examples (sentences (all_cards lists)) (flatten_input input)) in *.
  set (news := stamp (clock w) (ticks w) sel) in *.
  assert (lists' = <["unknown" := lists !!! "unknown" ++ news]> lists) as -> by congruence.
  assert (NoDup (sentences news)) as Hnd.
  { unfold news. rewrite sentences_stamp. apply spec_new_examples_NoDup. }
  exists news. split; [apply lookup_insert_eq|]. split; [done|].
  split; [intros s; by apply NoDup_occurrences|].
  intros c Hc. apply list_elem_of_lookup in Hc as [i Hi].
  apply lookup_stamp in Hi as ([r e] & Hx & ->).
  apply list_elem_of_lookup_2 in Hx.
  apply spec_new_examples_first in Hx as (_ & pre & post & Hsplit & Hpre).
  by exists pre, r, e, post, (clock w (ticks w + i)).
Qed.

End MergeClaims.

(** ** Uniqueness of sentences *)

Section Uniqueness.
Context `{Json}.
Implicit Types (lists : gmap string (list Card)) (w : World).
Implicit Types (c card : Card) (l old : list Card) (s n : string).

Lemma occurrences_app s l1 l2 :
  occurrences s (l1 ++ l2) = occurrences s l1 + occurrences s l2.
Proof. unfold occurrences. by rewrite filter_app, length_app. Qed.

Lemma occurrences_remove_same s l : occurrences s (remove_sentence s l) = 0.
Proof. apply occurrences_absent, remove_sentence_gone. Qed.

Lemma occurrences_remove_other s s' l :
  s ≠ s' → occurrences s (remove_sentence s' l) = occurrences s l.
Proof.
  intros Hne. unfold occurrences, remove_sentence.
  induction l as [|c l IH]; [done|].
  rewrite (filter_cons (λ e : Card, sentence e ≠ s')), (filter_cons (λ e : Card, sentence e = s) c l).
  destruct (decide (sentence c ≠ s')) as [Hk|Hk].
  - rewrite filter_cons. destruct (decide (sentence c = s)); simpl; by rewrite IH.
  - rewrite decide_False; [done|]. intros Heq. apply Hk. congruence.
Qed.

Lemma occurrences_le_NoDup l :
  (∀ s, occurrences s l ≤ 1) → NoDup (sentences l).
Proof.
  induction l as [|c l IH]; intros Hocc; [constructor|].
  unfold sentences. rewrite fmap_cons. constructor.
  - apply occurrences_absent. specialize (Hocc (sentence c)).
    unfold occurrences in *. rewrite filter_cons, decide_True in Hocc by done.
    simpl in Hocc. lia.
  - apply IH. intros s. specialize (Hocc s).
    unfold occurrences in *. rewrite filter_cons in Hocc.
    destruct (decide (sentence c = s)); simpl in Hocc; lia.
Qed.

(** Uniqueness, by counting: no sentence is carried by two entries. *)
Lemma unique_sentences_count lists :
  unique_sentences lists ↔ ∀ s, occurrences s (all_cards lists) ≤ 1.
Proof.
  split.
  - intros Hu s. by apply NoDup_occurrences.
  - apply occurrences_le_NoDup.
Qed.

Lemma occurrences_all_cards s lists :
  occurrences s (all_cards lists) =
  occurrences s (lists !!! "hard") + occurrences s (lists !!! "difficult") +
  occurrences s (lists !!! "easy") + occurrences s (lists !!! "unknown").
Proof.
  unfold all_cards, LISTS. simpl. rewrite app_nil_r, !occurrences_app. lia.
Qed.

Lemma unique_initial : unique_sentences initial_lists.
Proof. unfold unique_sentences. vm_compute. constructor. Qed.

Lemma lists_ok_initial : lists_ok initial_lists.
Proof. by apply (lists_ok_intro _ [] [] [] []). Qed.

(** The merge keeps the sentences unique. *)
Lemma merge_preserves_unique input lists w lists' w' :
  unique_sentences lists →
  add_new_examples_to_lists input lists w = (Ok lists', w') →
  unique_sentences lists'.
Proof.
  intros Hu Hm. pose proof (merge_Ok_inv _ _ _ _ _ Hm) as Hok.
  rewrite (merge_ok_stamp input lists w Hok) in Hm.
  assert (lists' = <["unknown" := lists !!! "unknown" ++
            stamp (clock w) (ticks w)
              (spec_new_examples (sentences (all_cards lists)) (flatten_input input))]>
            lists) as -> by congruence.
  unfold unique_sentences.
  rewrite (all_cards_append lists (lists !!! "unknown"))
    by (apply lists_ok_lookup; [done|apply elem_of_LISTS; tauto]).
  rewrite sentences_app, sentences_stamp. apply NoDup_app.
  split; [exact Hu|]. split; [|apply spec_new_examples_NoDup].
  intros s Hs Hs'. unfold ex_sentences in Hs'.
  apply list_elem_of_fmap in Hs' as (x & -> & Hx).
  by apply spec_new_examples_first in Hx as [Hfresh _].
Qed.

(** What a transition does to the number of entries carrying [s] in the
    list [n]. *)
Lemma occurrences_after_move s n card from_list to_list lists old t :
  lists !! from_list = Some old →
  let lists1 := <[from_list := remove_sentence (sentence card) old]> lists in
  let lists2 := <[to_list := lists1 !!! to_list ++ [set_next_review card t]]> lists1 in
  occurrences s (lists2 !!! n) =
    (if decide (n = from_list)
     then occurrences s (remove_sentence (sentence card) old)
     else occurrences s (lists !!! n))
    + (if decide (n = to_list)
       then (if decide (sentence card = s) then 1 else 0) else 0).
Proof.
  intros Hfrom lists1 lists2. subst lists2.
  assert (∀ k, lists1 !!! k =
            if decide (k = from_list) then remove_sentence (sentence card) old
            else lists !!! k) as H1.
  { intros k. subst lists1. destruct (decide (k = from_list)) as [->|Hk].
    - by rewrite lookup_total_insert_eq.
    - by rewrite lookup_total_insert_ne. }
  destruct (decide (n = to_list)) as [->|Hnt].
  - rewrite lookup_total_insert_eq, occurrences_app, H1.
    f_equal; [by destruct (decide (to_list = from_list))|].
    unfold occurrences. rewrite filter_cons. simpl.
    by destruct (decide (sentence card = s)).
  - rewrite lookup_total_insert_ne by done. rewrite H1, Nat.add_0_r.
    by destruct (decide (n = from_list)).
Qed.

(** A transition keeps the sentences unique when the card's sentence is
    in no list other than the one it is taken from. *)
Lemma move_card_preserves_unique card from_list to_list lists w lists' w' :
  unique_sentences lists → only_in card from_list lists →
  move_card card from_list to_list lists w = (Ok lists', w') →
  unique_sentences lists'.
Proof.
  intros Hu Honly Hm.
  destruct (move_card_Ok_inv _ _ _ _ _ _ _ Hm) as (Hok & [old Hfrom] & Hto).
  rewrite (move_card_ok _ _ _ _ _ _ Hok Hfrom Hto) in Hm.
  injection Hm as <- _.
  apply unique_sentences_count. intros s.
  rewrite occurrences_all_cards.
  rewrite !(occurrences_after_move s _ card from_list to_list lists old _ Hfrom).
  destruct (decide (sentence card = s)) as [<-|Hne].
  - rewrite occurrences_remove_same.
    assert (∀ n, n ∈ LISTS →
      (if decide (n = from_list) then 0 else occurrences (sentence card) (lists !!! n)) = 0)
      as Hzero.
    { intros n Hn. destruct (decide (n = from_list)); [done|].
      apply occurrences_absent. by apply Honly. }
    rewrite !Hzero by (apply elem_of_LISTS; tauto).
    apply elem_of_LISTS in Hto as [->|[->|[->| ->]]]; simpl; lia.
  - rewrite (occurrences_remove_other s (sentence card) old) by done.
    assert (∀ n, (if decide (n = from_list) then occurrences s old
                  else occurrences s (lists !!! n)) = occurrences s (lists !!! n))
      as Hsame.
    { intros n. destruct (decide (n = from_list)) as [->|]; [|done].
      by rewrite (lookup_total_correct _ _ _ Hfrom). }
    rewrite !Hsame.
    apply unique_sentences_count with (s := s) in Hu.
    rewrite occurrences_all_cards in Hu.
    repeat match goal with |- context [decide (?a = to_list)] =>
      destruct (decide (a = to_list)) end; lia.
Qed.

(** In a state with unique sentences, a card found in one of the four
    lists has its sentence in no other. *)
Lemma only_in_of_member card from_list lists :
  unique_sentences lists → from_list ∈ LISTS →
  sentence card ∈ sentences (lists !!! from_list) →
  only_in card from_list lists.
Proof.
  intros Hu Hfrom Hin n Hn Hne.
  apply unique_sentences_count with (s := sentence card) in Hu.
  rewrite occurrences_all_cards in Hu.
  apply occurrences_absent.
  assert (occurrences (sentence card) (lists !!! from_list) ≠ 0) as Hpos
    by (intros H0; by apply occurrences_absent in H0).
  apply elem_of_LISTS in Hfrom as [->|[->|[->| ->]]];
    apply elem_of_LISTS in Hn as [->|[->|[->| ->]]]; try done; lia.
Qed.

(** C4, as the code has it. Every state of the lists reached from the
    empty lists by merges and by transitions of a card whose sentence is
    in no list other than the one it is taken from has each sentence at
    most once over the four lists together; from such a state one more
    merge, or one more such transition, leads to a state that has the
    property too; and in such a state a card found in one of the four
    lists can always be moved in that way. *)
Theorem unique_sentences_invariant lists :
  reachable only_in lists →
  unique_sentences lists ∧
  (∀ input w lists' w',
     add_new_examples_to_lists input lists w = (Ok lists', w') →
     unique_sentences lists') ∧
  (∀ card from_list to_list w lists' w',
     only_in card from_list lists →
     move_card card from_list to_list lists w = (Ok lists', w') →
     unique_sentences lists') ∧
  (∀ card from_list,
     from_list ∈ LISTS → sentence card ∈ sentences (lists !!! from_list) →
     only_in card from_list lists).
Proof.
  intros Hreach.
  assert (unique_sentences lists) as Hu.
  { induction Hreach as [|input lists lists' w w' _ IH Hm
                         |card from_list to_list lists lists' w w' _ IH Hg Hm].
    - apply unique_initial.
    - by eapply merge_preserves_unique.
    - by eapply move_card_preserves_unique. }
  split; [done|]. split; [|split].
  - intros input w lists' w' Hm. by eapply merge_preserves_unique.
  - intros card from_list to_list w lists' w' Hg Hm.
    by eapply move_card_preserves_unique.
  - intros card from_list Hfrom Hin. by apply only_in_of_member.
Qed.

End Uniqueness.

(** ** Storage round trip, and what the operations leave alone *)

Section Storage.
Context `{Json}.
Implicit Types (lists : gmap string (list Card)) (w : World).
Implicit Types (c card : Card) (l old data : list Card) (s n : string).


(** Saving one list leaves the files of the other lists alone. *)
Lemma load_other_after_save n k data w :
  list_path n ≠ list_path k →
  files (put_file (list_path n) (json_dump data 4 false) w) !! list_path k =
  files w !! list_path k.
Proof. intros Hne. simpl. by rewrite lookup_insert_ne. Qed.





End Storage.

(** ** The properties at work on examples *)

Import PlainJson.

(** A run that returns [a] returns it with the world it leaves. *)
Lemma run_returns {A} (m : M A) (w : World) (a : A) :
  (m w).1 = Ok a → m w = (Ok a, (m w).2).
Proof. destruct (m w) as [r w']. simpl. by intros ->. Qed.

Lemma only_in_check card from_list lists :
  forallb (λ n, bool_decide (n = from_list)
                || bool_decide (sentence card ∉ sentences (lists !!! n))) LISTS = true →
  only_in card from_list lists.
Proof.
  intros Hall n Hn Hne. rewrite forallb_forall in Hall.
  apply list_elem_of_In in Hn. specialize (Hall n Hn).
  apply orb_prop in Hall as [Heq|Hnin].
  - by apply bool_decide_eq_true in Heq.
  - by apply bool_decide_eq_true in Hnin.
Qed.

(** The scheduling scenario of the specification: a card of "easy" due
    for ten seconds goes before a card of "unknown" due for an hour. *)
Lemma get_next_card_first_due_witness :
  let lists := lists_of [] [] [kare (clock0 0 - 10000000)]
                            [inu (clock0 0 - 3600000000)] in
  lists_ok lists ∧
  get_next_card lists world0 = (Ok (Some (kare (clock0 0 - 10000000), "easy")), tick world0).
Proof.
  intros lists.
  assert (lists_ok lists) as Hok by (by eapply lists_ok_intro).
  split; [exact Hok|].
  destruct (get_next_card_first_due lists world0 Hok) as (r & Hr & _).
  assert ((get_next_card lists world0).1
          = Ok (Some (kare (clock0 0 - 10000000), "easy"))) as Hrun
    by (vm_compute; reflexivity).
  rewrite Hr in Hrun. simpl in Hrun. by rewrite Hr, Hrun.
Defined.



(** A card that has left "unknown" already is moved from "unknown"
    again: nothing is raised and "unknown" stays as it is. *)
Lemma move_card_absent_is_silent_witness :
  let lists := lists_of [] [] [kare (clock0 0 + 120 * minute)] [inu (clock0 1)] in
  lists_ok lists ∧ lists !! "unknown" = Some [inu (clock0 1)] ∧
  "hard" ∈ LISTS ∧
  (sentence (kare (clock0 0)) ∉ sentences [inu (clock0 1)]) ∧
  ∃ w', move_card (kare (clock0 0)) "unknown" "hard" lists world0 =
          (Ok (lists_of [kare (clock0 0 + 1 * minute)] []
                        [kare (clock0 0 + 120 * minute)] [inu (clock0 1)]), w').
Proof.
  intros lists.
  assert (lists_ok lists) as Hok by (by eapply lists_ok_intro).
  assert ("hard" ∈ LISTS) as Hto by (apply elem_of_LISTS; tauto).
  assert (sentence (kare (clock0 0)) ∉ sentences [inu (clock0 1)]) as Habs
    by (apply (bool_decide_unpack _); vm_compute; exact I).
  split; [exact Hok|]. split; [reflexivity|]. split; [exact Hto|].
  split; [exact Habs|].
  destruct (move_card_absent_is_silent (kare (clock0 0)) "unknown" "hard" lists
              world0 [inu (clock0 1)] Hok eq_refl Hto Habs) as (_ & w' & Hm).
  exists w'. rewrite Hm. f_equal.
Defined.

(** Three entries of "unknown" carry the sentence: all three go, one
    card arrives in "easy", and the two lists together lose two. *)
Lemma move_card_removes_every_duplicate_witness :
  let old := [kare (clock0 0); inu (clock0 1); kare (clock0 2); kare (clock0 3)] in
  let lists := lists_of [] [] [] old in
  lists_ok lists ∧ lists !! "unknown" = Some old ∧ "easy" ∈ LISTS ∧
  1 < occurrences (sentence (kare (clock0 0))) old ∧
  ∃ lists' w',
    move_card (kare (clock0 0)) "unknown" "easy" lists world0 = (Ok lists', w') ∧
    lists' !! "unknown" = Some [inu (clock0 1)] ∧
    lists' !! "easy" = Some [kare (clock0 0 + 120 * minute)].
Proof.
  intros old lists.
  assert (lists_ok lists) as Hok by (by eapply lists_ok_intro).
  assert ("easy" ∈ LISTS) as Hto by (apply elem_of_LISTS; tauto).
  assert (1 < occurrences (sentence (kare (clock0 0))) old) as Hdup
    by (vm_compute; lia).
  split; [exact Hok|]. split; [reflexivity|]. split; [exact Hto|].
  split; [exact Hdup|].
  destruct (move_card_removes_every_duplicate (kare (clock0 0)) "unknown" "easy"
              lists world0 old Hok eq_refl Hto Hdup)
    as (lists' & w' & Hm & _ & _ & _ & Hne & _).
  exists lists', w'. split; [exact Hm|].
  destruct (Hne ltac:(discriminate)) as (Hfrom & Hdest & _).
  split; [exact Hfrom|exact Hdest].
Defined.

(** The merge scenario of the specification: the one example of the
    source is not in any list, and "unknown" gets exactly its card, with
    the word as [root_word] and the reading as [next_review]; the list is
    written once. *)
Lemma merge_adds_new_examples_witness :
  lists_ok initial_lists ∧
  ∃ lists' w',
    add_new_examples_to_lists input_hashiru initial_lists world0 = (Ok lists', w') ∧
    lists' !! "unknown" = Some [kare (clock0 0)] ∧
    written w' = [(list_path "unknown", json_dump [kare (clock0 0)] 4 false)].
Proof.
  split; [exact lists_ok_initial|].
  destruct (merge_adds_new_examples input_hashiru initial_lists world0 lists_ok_initial)
    as (lists' & w' & Hm & Hu & _ & _ & _ & _ & _ & _ & Hw & _).
  exists lists', w'. split; [exact Hm|]. split; [exact Hu|exact Hw].
Defined.

(** Merging the same source again changes nothing. *)
Lemma merge_idempotent_witness :
  let lists1 := lists_of [] [] [] [kare (clock0 0)] in
  let w1 := (add_new_examples_to_lists input_hashiru initial_lists world0).2 in
  add_new_examples_to_lists input_hashiru initial_lists world0 = (Ok lists1, w1) ∧
  add_new_examples_to_lists input_hashiru lists1 w1 = (Ok lists1, w1).
Proof.
  intros lists1 w1.
  assert (add_new_examples_to_lists input_hashiru initial_lists world0 = (Ok lists1, w1))
    as Hm by (apply run_returns; vm_compute; reflexivity).
  split; [exact Hm|].
  exact (proj1 (merge_idempotent input_hashiru initial_lists world0 lists1 w1 Hm) w1).
Defined.

(** One sentence three times in the source: one card, from the first
    example, under the first word. *)
Lemma merge_one_card_per_sentence_witness :
  let lists' := lists_of [] [] [] [kare (clock0 0); inu (clock0 1)] in
  let w' := (add_new_examples_to_lists input_repeated initial_lists world0).2 in
  add_new_examples_to_lists input_repeated initial_lists world0 = (Ok lists', w') ∧
  ∃ news, lists' !! "unknown" = Some (initial_lists !!! "unknown" ++ news) ∧
          occurrences "彼は走る" news ≤ 1.
Proof.
  intros lists' w'.
  assert (add_new_examples_to_lists input_repeated initial_lists world0 = (Ok lists', w'))
    as Hm by (apply run_returns; vm_compute; reflexivity).
  split; [exact Hm|].
  destruct (merge_one_card_per_sentence input_repeated initial_lists world0 lists' w' Hm)
    as (news & Hu & _ & Hocc & _).
  exists news. split; [exact Hu|apply Hocc].
Defined.

(** From the empty lists, a merge and then a move of the card from the
    list it is in: a state with every sentence once. *)
Lemma unique_sentences_invariant_witness :
  let lists2 := lists_of [] [] [kare (clock0 0 + 120 * minute)] [] in
  reachable only_in lists2 ∧ unique_sentences lists2.
Proof.
  intros lists2.
  assert (reachable only_in lists2) as Hreach.
  { eapply (reach_move only_in (kare (clock0 0)) "unknown" "easy"
              (lists_of [] [] [] [kare (clock0 0)]) lists2 world0).
    - eapply (reach_merge only_in input_hashiru initial_lists _ world0).
      + apply reach_init.
      + apply run_returns. vm_compute. reflexivity.
    - apply only_in_check. vm_compute. reflexivity.
    - apply run_returns. vm_compute. reflexivity. }
  split; [exact Hreach|].
  exact (proj1 (unique_sentences_invariant lists2 Hreach)).
Defined.

(** Against C4 as worded: the card is moved from "unknown" to "easy",
    and then, by a caller that still holds it as a card of "unknown",
    from "unknown" to "hard". Nothing is raised, and the sentence is in
    "hard" and in "easy". *)
Lemma move_card_twice_counterexample :
  let lists3 := lists_of [kare (clock0 0 + 1 * minute)] []
                         [kare (clock0 0 + 120 * minute)] [] in
  reachable (λ _ _ _, True) lists3 ∧ ¬ unique_sentences lists3.
Proof.
  intros lists3. split.
  - eapply (reach_move _ (kare (clock0 0)) "unknown" "hard"
              (lists_of [] [] [kare (clock0 0 + 120 * minute)] []) lists3 world0);
      [|exact I|apply run_returns; vm_compute; reflexivity].
    eapply (reach_move _ (kare (clock0 0)) "unknown" "easy"
              (lists_of [] [] [] [kare (clock0 0)]) _ world0);
      [|exact I|apply run_returns; vm_compute; reflexivity].
    eapply (reach_merge _ input_hashiru initial_lists _ world0);
      [apply reach_init|apply run_returns; vm_compute; reflexivity].
  - unfold unique_sentences. intros Hnd.
    assert (sentences (all_cards lists3) = ["彼は走る"; "彼は走る"]) as Hs
      by (vm_compute; reflexivity).
    rewrite Hs in Hnd. apply NoDup_cons in Hnd as [Hnin _].
    apply Hnin. by left.
Qed.




